(** * SipHash (allc/SipHash): a shallow embedding of [siphash.py] and [util.py]

    Python integers are unbounded, so every value is a [Z]; the 64-bit
    wrap-around is the explicit [& 0xffffffffffffffff] of the source.
    [bytes] are lists of [byte]; [int.to_bytes] / [int.from_bytes] are
    [le_split] / [le_combine] of coqutil, with the [OverflowError] that
    [to_bytes] raises when the value does not fit. *)

From Stdlib Require Import ZArith List String Ascii Lia.
From Stdlib Require Import Btauto.
From coqutil Require Import Byte Z.bitblast Word.LittleEndianList.
Import ListNotations.
Local Open Scope Z_scope.

(** ** Python runtime pieces *)

(** The only exception the code can raise. *)
Inductive exc := OverflowError.

(** [int.to_bytes(n, length, 'big' | 'little')]: unsigned, raises
    [OverflowError] on a negative value or one of more than [length] bytes. *)
Definition int_to_bytes (n : Z) (length : nat) (big : bool) : exc + list byte :=
  if ((0 <=? n) && (n <? 2 ^ (8 * Z.of_nat length)))%bool then
    let l := le_split length n in inr (if big then List.rev l else l)
  else inl OverflowError.

(** [int.from_bytes(b, 'little')] and [int.from_bytes(b, 'big')]. *)
Definition int_from_bytes (b : list byte) (big : bool) : Z :=
  le_combine (if big then List.rev b else b).

(** [range(0, n, step)] *)
Definition py_range_step (n step : nat) : list nat :=
  map (fun j => (step * j)%nat) (seq 0 ((n + step - 1) / step)).

(** [l[i : i + k]] *)
Definition py_slice {A} (l : list A) (i k : nat) : list A := firstn k (skipn i l).

(** [hex(n)]: lowercase hexadecimal with the [0x] prefix, [-0x] for a
    negative number, no zero padding. *)
Definition hex_char (n : Z) : ascii :=
  match String.get (Z.to_nat n) "0123456789abcdef" with
  | Some ch => ch
  | None => "0"%char
  end.

(** The digits of [n >= 0], most significant first; [fuel] bounds the
    number of divisions by 16. *)
Fixpoint hex_digits_aux (fuel : nat) (n : Z) (acc : string) : string :=
  match fuel with
  | O => acc
  | S fuel' =>
      let acc' := String (hex_char (n mod 16)) acc in
      if n <? 16 then acc' else hex_digits_aux fuel' (n / 16) acc'
  end.

Definition hex_digits (n : Z) : string :=
  hex_digits_aux (S (Z.to_nat (Z.log2 n))) n EmptyString.

Definition hex (n : Z) : string :=
  if n <? 0 then "-0x" ++ hex_digits (- n) else "0x" ++ hex_digits n.

(** [s[2:]] *)
Definition drop2 (s : string) : string := String.substring 2 (String.length s - 2) s.

(** ** util.py *)

(** [big_to_little8]: [int.from_bytes(num.to_bytes(8, 'big'), 'little')]. *)
Definition big_to_little8 (num : Z) : exc + Z :=
  match int_to_bytes num 8 true with
  | inl e => inl e
  | inr b => inr (int_from_bytes b false)
  end.

(** [rotl8]: [((num << bits) & 0xffffffffffffffff) | (num >> (64 - bits))]. *)
Definition rotl8 (num bits : Z) : Z :=
  Z.lor (Z.land (Z.shiftl num bits) 0xffffffffffffffff) (Z.shiftr num (64 - bits)).

(** ** siphash.py *)

Definition state : Type := (Z * Z * Z * Z)%type.

(** The instance attributes of [SipHash]. *)
Record SipHash := mkSipHash {
  key : Z;
  message : list byte;
  c : Z;
  d : Z;
  hash : option Z
}.

(** [SipHash.__init__(key, message, c=2, d=4)]: stores the arguments and
    sets [self.hash = None]; it checks nothing. *)
Definition SipHash_init (key : Z) (message : list byte) (c d : Z) : SipHash :=
  mkSipHash key message c d None.

Definition SipHash_default (key : Z) (message : list byte) : SipHash :=
  SipHash_init key message 2 4.

(** [_encode_key] *)
Definition _encode_key (key : Z) : exc + (Z * Z) :=
  match big_to_little8 (Z.shiftr key (8 * 8)) with
  | inl e => inl e
  | inr k0 =>
      match big_to_little8 (Z.land key 0xffffffffffffffff) with
      | inl e => inl e
      | inr k1 => inr (k0, k1)
      end
  end.

(** [_initialise_internal_state] *)
Definition _initialise_internal_state (k0 k1 : Z) : state :=
  let c1 := 0x736f6d6570736575 in
  let c2 := 0x646f72616e646f6d in
  let c3 := 0x6c7967656e657261 in
  let c4 := 0x7465646279746573 in
  let v0 := Z.lxor k0 c1 in
  let v1 := Z.lxor k1 c2 in
  let v2 := Z.lxor k0 c3 in
  let v3 := Z.lxor k1 c4 in
  (v0, v1, v2, v3).

(** [_message_to_words] *)
Definition _message_to_words (message : list byte) : exc + list Z :=
  let message_length := List.length message in
  let padding_length := ((message_length + 1) mod 8)%nat in
  match int_to_bytes (Z.of_nat message_length mod 256) 1 false with
  | inl e => inl e
  | inr len_byte =>
      let message := (message ++ repeat Byte.x00 padding_length ++ len_byte)%list in
      inr (map (fun i => int_from_bytes (py_slice message i 8) false)
               (py_range_step (List.length message) 8))
  end.

(** [_sipround] *)
Definition _sipround (internal_state : state) : state :=
  let '(v0, v1, v2, v3) := internal_state in
  let v0 := Z.land (v0 + v1) 0xffffffffffffffff in
  let v1 := rotl8 v1 13 in
  let v1 := Z.lxor v1 v0 in
  let v0 := rotl8 v0 32 in
  let v2 := Z.land (v2 + v3) 0xffffffffffffffff in
  let v3 := rotl8 v3 16 in
  let v3 := Z.lxor v3 v2 in
  let v2 := Z.land (v2 + v1) 0xffffffffffffffff in
  let v1 := rotl8 v1 17 in
  let v1 := Z.lxor v1 v2 in
  let v2 := rotl8 v2 32 in
  let v0 := Z.land (v0 + v3) 0xffffffffffffffff in
  let v3 := rotl8 v3 21 in
  let v3 := Z.lxor v3 v0 in
  (v0, v1, v2, v3).

(** [for _ in range(n): body] *)
Definition py_repeat {A} (n : Z) (body : A -> A) (a : A) : A :=
  Nat.iter (Z.to_nat n) body a.

(** [_compress], with [self.c] passed as [c]. *)
Definition _compress (c : Z) (message : list byte) (internal_state : state)
  : exc + state :=
  match _message_to_words message with
  | inl e => inl e
  | inr words =>
      inr (fold_left
             (fun st word =>
                let '(v0, v1, v2, v3) := st in
                let v3 := Z.lxor v3 word in
                let '(v0, v1, v2, v3) := py_repeat c _sipround (v0, v1, v2, v3) in
                let v0 := Z.lxor v0 word in
                (v0, v1, v2, v3))
             words internal_state)
  end.

(** [_finalise], with [self.d] passed as [d]. *)
Definition _finalise (d : Z) (internal_state : state) : Z :=
  let '(v0, v1, v2, v3) := internal_state in
  let v2 := Z.lxor v2 0xff in
  let '(v0, v1, v2, v3) := py_repeat d _sipround (v0, v1, v2, v3) in
  Z.lxor (Z.lxor (Z.lxor v0 v1) v2) v3.

(** ** Methods on the instance: a state and exception monad over [SipHash] *)

Definition M (A : Type) : Type := SipHash -> (exc + A) * SipHash.

Definition ret {A} (a : A) : M A := fun s => (inr a, s).
Definition bind {A B} (m : M A) (k : A -> M B) : M B :=
  fun s => match m s with
           | (inl e, s') => (inl e, s')
           | (inr a, s') => k a s'
           end.
Definition get : M SipHash := fun s => (inr s, s).
Definition put (s : SipHash) : M unit := fun _ => (inr tt, s).
(** A call that may raise but does not touch [self]. *)
Definition lift {A} (r : exc + A) : M A := fun s => (r, s).

Declare Scope sip_monad_scope.
Notation "x <- m ;; k" := (bind m (fun x => k))
  (at level 61, m at next level, right associativity) : sip_monad_scope.
Notation "m ;; k" := (bind m (fun _ => k))
  (at level 61, right associativity) : sip_monad_scope.
Local Open Scope sip_monad_scope.

(** [get_hash] *)
Definition get_hash : M Z :=
  self <- get ;;
  match hash self with
  | Some h => ret h
  | None =>
      kk <- lift (_encode_key (key self)) ;;
      let '(k0, k1) := kk in
      let internal_state := _initialise_internal_state k0 k1 in
      internal_state <- lift (_compress (c self) (message self) internal_state) ;;
      let h := _finalise (d self) internal_state in
      put {| key := key self; message := message self; c := c self; d := d self;
             hash := Some h |} ;;
      ret h
  end.

(** [hexdigest]: [hex(self.get_hash())[2:]] *)
Definition hexdigest : M string :=
  h <- get_hash ;;
  ret (drop2 (hex h)).

(** The test vector of [test_siphash.py]. *)
Definition test_key : Z := 0x000102030405060708090a0b0c0d0e0f.
Definition test_message : list byte :=
  map byte.of_Z [0;1;2;3;4;5;6;7;8;9;10;11;12;13;14].

(** ** Models read off the spec, to be compared with the code *)

(** Modelled from the spec: [byteSwap64] of section 4.1, which reverses the
    byte order of a 64-bit value: byte [i] (from the least significant end)
    moves to byte [7 - i]. *)
Definition byteSwap64 (value : Z) : Z :=
  fold_right Z.lor 0
    (map (fun i => Z.shiftl (Z.land (Z.shiftr value (8 * i)) 0xff) (8 * (7 - i)))
         [0; 1; 2; 3; 4; 5; 6; 7]).

(** Modelled from the spec: addition modulo 2^64 and [rotateLeft64] of
    section 4.1, [(value << bits) | (value >> (64 - bits))] with both shifts
    masked to 64 bits. *)
Definition add64 (a b : Z) : Z := (a + b) mod 2 ^ 64.
Definition rotateLeft64 (value bits : Z) : Z :=
  Z.lor (Z.land (Z.shiftl value bits) 0xffffffffffffffff)
        (Z.land (Z.shiftr value (64 - bits)) 0xffffffffffffffff).

(** Modelled from the spec: the [sipRound] step sequence of section 4.5. *)
Definition sipRound_spec (s : state) : state :=
  let '(v0, v1, v2, v3) := s in
  let v0 := add64 v0 v1 in let v1 := rotateLeft64 v1 13 in
  let v1 := Z.lxor v1 v0 in let v0 := rotateLeft64 v0 32 in
  let v2 := add64 v2 v3 in let v3 := rotateLeft64 v3 16 in
  let v3 := Z.lxor v3 v2 in
  let v2 := add64 v2 v1 in let v1 := rotateLeft64 v1 17 in
  let v1 := Z.lxor v1 v2 in let v2 := rotateLeft64 v2 32 in
  let v0 := add64 v0 v3 in let v3 := rotateLeft64 v3 21 in
  let v3 := Z.lxor v3 v0 in
  (v0, v1, v2, v3).

(** A 64-bit word, and a state of four of them. *)
Definition in64 (x : Z) : Prop := 0 <= x < 2 ^ 64.
Definition state_ok (s : state) : Prop :=
  let '(v0, v1, v2, v3) := s in in64 v0 /\ in64 v1 /\ in64 v2 /\ in64 v3.

(** The steps of [_sipround] undone in reverse order: subtraction modulo
    2^64 undoes an addition, rotation by [64 - r] undoes one by [r], and
    [^=] undoes itself. *)
Definition _sipround_inv (internal_state : state) : state :=
  let '(v0, v1, v2, v3) := internal_state in
  let v3 := Z.lxor v3 v0 in
  let v3 := rotl8 v3 43 in
  let v0 := (v0 - v3) mod 2 ^ 64 in
  let v2 := rotl8 v2 32 in
  let v1 := Z.lxor v1 v2 in
  let v1 := rotl8 v1 47 in
  let v2 := (v2 - v1) mod 2 ^ 64 in
  let v3 := Z.lxor v3 v2 in
  let v3 := rotl8 v3 48 in
  let v2 := (v2 - v3) mod 2 ^ 64 in
  let v0 := rotl8 v0 32 in
  let v1 := Z.lxor v1 v0 in
  let v1 := rotl8 v1 51 in
  let v0 := (v0 - v1) mod 2 ^ 64 in
  (v0, v1, v2, v3).

(** The body of the [for word in words] loop of [_compress], as a function
    of the state. *)
Definition compress_step (c : Z) (st : state) (word : Z) : state :=
  let '(v0, v1, v2, v3) := st in
  let v3 := Z.lxor v3 word in
  let '(v0, v1, v2, v3) := py_repeat c _sipround (v0, v1, v2, v3) in
  let v0 := Z.lxor v0 word in
  (v0, v1, v2, v3).

(** The padded buffer that [_message_to_words] builds, and its cutting into
    little-endian words of 8-byte slices. *)
Definition padded_message (message : list byte) : list byte :=
  let message_length := List.length message in
  (message ++ repeat Byte.x00 ((message_length + 1) mod 8)
           ++ [byte.of_Z (Z.of_nat message_length mod 256)])%list.

Definition words_of_buffer (message : list byte) : list Z :=
  map (fun i => int_from_bytes (py_slice message i 8) false)
      (py_range_step (List.length message) 8).

(** Reading back a string of lowercase hexadecimal digits, as Python's
    [int(s, 16)] does on such a string: [None] on the empty string or on a
    character that is not one of [0123456789abcdef]. *)
Fixpoint digit_index (ch : ascii) (digits : string) (i : Z) : option Z :=
  match digits with
  | EmptyString => None
  | String d rest => if Ascii.eqb d ch then Some i else digit_index ch rest (i + 1)
  end.

Definition hex_digit_value (ch : ascii) : option Z := digit_index ch "0123456789abcdef" 0.

Fixpoint parse_hex_from (acc : Z) (s : string) : option Z :=
  match s with
  | EmptyString => Some acc
  | String ch rest =>
      match hex_digit_value ch with
      | Some v => parse_hex_from (16 * acc + v) rest
      | None => None
      end
  end.

Definition int_base16 (s : string) : option Z :=
  match s with
  | EmptyString => None
  | _ => parse_hex_from 0 s
  end.

(** ** Sanity checks against [test_siphash.py] *)

Example ex_encode : _encode_key test_key = inr (0x0706050403020100, 0x0f0e0d0c0b0a0908).
Proof. vm_compute. reflexivity. Qed.
Example ex_words : _message_to_words test_message = inr [0x0706050403020100; 0x0f0e0d0c0b0a0908].
Proof. vm_compute. reflexivity. Qed.
Example ex_compress :
  _compress 2 test_message (0x7469686173716475, 0x6b617f6d656e6665, 0x6b7f62616d677361, 0x7b6b696e727e6c7b)
  = inr (0x3c85b3ab6f55be51, 0x414fc3fb98efe374, 0xccf13ea527b9f4bd, 0x5293f5da84008f82).
Proof. vm_compute. reflexivity. Qed.
Example ex_finalise :
  _finalise 4 (0x3c85b3ab6f55be51, 0x414fc3fb98efe374, 0xccf13ea527b9f4bd, 0x5293f5da84008f82)
  = 0xa129ca6149be45e5.
Proof. vm_compute. reflexivity. Qed.

(** ** 64-bit word lemmas *)

Create HintDb in64.

Lemma mask64 : 0xffffffffffffffff = Z.ones 64.
Proof. reflexivity. Qed.

Lemma in64_mod x : in64 x -> x mod 2 ^ 64 = x.
Proof. unfold in64; intros; apply Z.mod_small; lia. Qed.

Lemma in64_testbit_high x n : in64 x -> 64 <= n -> Z.testbit x n = false.
Proof.
  intros Hx Hn. rewrite <- (in64_mod x Hx). apply Z.mod_pow2_bits_high. lia.
Qed.

(** A non-negative number with no bit at 64 or above is a 64-bit word. *)
Lemma in64_of_bits y :
  0 <= y -> (forall n, 64 <= n -> Z.testbit y n = false) -> in64 y.
Proof.
  intros Hy Hb.
  assert (E : y = y mod 2 ^ 64).
  { apply Z.bits_inj'; intros n Hn.
    destruct (Z.lt_ge_cases n 64).
    - rewrite Z.mod_pow2_bits_low; auto.
    - rewrite Z.mod_pow2_bits_high by lia. auto. }
  unfold in64. rewrite E. apply Z.mod_pos_bound. lia.
Qed.

Lemma in64_mod_pow x : in64 (x mod 2 ^ 64).
Proof. unfold in64. apply Z.mod_pos_bound. lia. Qed.

Lemma in64_land_mask x : in64 (Z.land x 0xffffffffffffffff).
Proof. rewrite mask64, Z.land_ones by lia. apply in64_mod_pow. Qed.

Lemma in64_lxor x y : in64 x -> in64 y -> in64 (Z.lxor x y).
Proof.
  intros Hx Hy. apply in64_of_bits.
  - apply Z.lxor_nonneg; unfold in64 in *; lia.
  - intros n Hn. rewrite Z.lxor_spec, !in64_testbit_high by auto. reflexivity.
Qed.

Lemma in64_lor x y : in64 x -> in64 y -> in64 (Z.lor x y).
Proof.
  intros Hx Hy. apply in64_of_bits.
  - apply Z.lor_nonneg; unfold in64 in *; lia.
  - intros n Hn. rewrite Z.lor_spec, !in64_testbit_high by auto. reflexivity.
Qed.

Lemma in64_add64 x y : in64 (add64 x y).
Proof. apply in64_mod_pow. Qed.

Lemma in64_rotateLeft64 x b : in64 (rotateLeft64 x b).
Proof. unfold rotateLeft64. apply in64_lor; apply in64_land_mask. Qed.

Lemma shiftr_in64 x k : in64 x -> 0 <= k -> in64 (Z.shiftr x k).
Proof.
  intros Hx Hk. apply in64_of_bits.
  - apply Z.shiftr_nonneg. unfold in64 in Hx; lia.
  - intros n Hn. rewrite Z.shiftr_spec by lia. apply in64_testbit_high; auto; lia.
Qed.

Lemma in64_rotl8 x b : in64 x -> 0 < b < 64 -> in64 (rotl8 x b).
Proof.
  intros Hx Hb. unfold rotl8. apply in64_lor.
  - apply in64_land_mask.
  - apply shiftr_in64; auto; lia.
Qed.

#[export] Hint Resolve in64_mod_pow in64_land_mask in64_lxor in64_lor in64_add64
  in64_rotateLeft64 in64_rotl8 : in64.
#[export] Hint Extern 1 (_ < _ < _) => lia : in64.

(** The bits of a rotation: bit [n] of [rotl8 x b] is bit [(n - b) mod 64]
    of [x]. *)
Lemma testbit_rotl8 x b n :
  in64 x -> 0 < b < 64 -> 0 <= n ->
  Z.testbit (rotl8 x b) n = ((n <? 64) && Z.testbit x ((n - b) mod 64))%bool.
Proof.
  intros Hx Hb Hn. unfold rotl8.
  rewrite Z.lor_spec, Z.land_spec, mask64, Z.shiftl_spec, Z.shiftr_spec by lia.
  rewrite Z.testbit_ones_nonneg by lia.
  destruct (Z.lt_ge_cases n b) as [H1 | H1].
  - rewrite (Z.testbit_neg_r x (n - b)) by lia.
    replace ((n - b) mod 64) with (n + (64 - b)).
    + replace (n <? 64) with true by (symmetry; apply Z.ltb_lt; lia). reflexivity.
    + apply (Z.mod_unique _ _ (-1)); lia.
  - rewrite (in64_testbit_high x (n + (64 - b))) by (auto; lia).
    rewrite Bool.orb_false_r.
    destruct (Z.lt_ge_cases n 64) as [H2 | H2].
    + rewrite Z.mod_small by lia.
      replace (n <? 64) with true by (symmetry; apply Z.ltb_lt; lia).
      apply Bool.andb_true_r.
    + replace (n <? 64) with false by (symmetry; apply Z.ltb_ge; lia).
      apply Bool.andb_false_r.
Qed.

Lemma rotl8_cancel x b b' :
  in64 x -> 0 < b < 64 -> b + b' = 64 -> rotl8 (rotl8 x b) b' = x.
Proof.
  intros Hx Hb Hbb. apply Z.bits_inj'; intros n Hn.
  rewrite testbit_rotl8 by (auto with in64; lia).
  destruct (Z.lt_ge_cases n 64) as [H2 | H2].
  - replace (n <? 64) with true by (symmetry; apply Z.ltb_lt; lia). simpl.
    rewrite testbit_rotl8 by (auto; try lia; apply Z.mod_pos_bound; lia).
    replace (((n - b') mod 64) <? 64) with true
      by (symmetry; apply Z.ltb_lt; apply Z.mod_pos_bound; lia). simpl.
    f_equal. rewrite Zminus_mod_idemp_l.
    replace (n - b' - b) with (n + (-1) * 64) by lia.
    rewrite Z.mod_add by lia. apply Z.mod_small; lia.
  - replace (n <? 64) with false by (symmetry; apply Z.ltb_ge; lia).
    symmetry. apply in64_testbit_high; auto.
Qed.

Lemma rotl8_rotateLeft64 x b : in64 x -> 0 < b < 64 -> rotl8 x b = rotateLeft64 x b.
Proof.
  intros Hx Hb. unfold rotl8, rotateLeft64. f_equal.
  rewrite mask64, Z.land_ones by lia. symmetry. apply in64_mod, shiftr_in64; auto; lia.
Qed.

Lemma land_add_add64 x y : Z.land (x + y) 0xffffffffffffffff = add64 x y.
Proof. rewrite mask64, Z.land_ones by lia. reflexivity. Qed.

Lemma add_sub_cancel x y : in64 x -> (Z.land (x + y) 0xffffffffffffffff - y) mod 2 ^ 64 = x.
Proof.
  intros Hx. rewrite land_add_add64. unfold add64.
  rewrite Zminus_mod_idemp_l. replace (x + y - y) with x by lia. apply in64_mod; auto.
Qed.

Lemma sub_add_cancel x y : in64 x -> Z.land ((x - y) mod 2 ^ 64 + y) 0xffffffffffffffff = x.
Proof.
  intros Hx. rewrite land_add_add64. unfold add64.
  rewrite Zplus_mod_idemp_l. replace (x - y + y) with x by lia. apply in64_mod; auto.
Qed.

Lemma lxor_cancel x y : Z.lxor (Z.lxor x y) y = x.
Proof. rewrite Z.lxor_assoc, Z.lxor_nilpotent, Z.lxor_0_r. reflexivity. Qed.

(** ** SipRound is a permutation of the 64-bit states *)

Ltac cancel_steps :=
  repeat first
    [ rewrite lxor_cancel
    | rewrite rotl8_cancel by (auto 10 with in64; lia)
    | rewrite add_sub_cancel by (auto 10 with in64)
    | rewrite sub_add_cancel by (auto 10 with in64) ].

Lemma sipround_state_ok s : state_ok s -> state_ok (_sipround s).
Proof.
  destruct s as [[[v0 v1] v2] v3].
  cbv beta iota zeta delta [_sipround state_ok]. intros (H0 & H1 & H2 & H3).
  split; [| split; [| split]]; auto 20 with in64.
Qed.

Lemma sipround_inv_state_ok s : state_ok s -> state_ok (_sipround_inv s).
Proof.
  destruct s as [[[v0 v1] v2] v3].
  cbv beta iota zeta delta [_sipround_inv state_ok]. intros (H0 & H1 & H2 & H3).
  split; [| split; [| split]]; auto 20 with in64.
Qed.

Lemma sipround_inv_sipround s : state_ok s -> _sipround_inv (_sipround s) = s.
Proof.
  destruct s as [[[v0 v1] v2] v3]. intros (H0 & H1 & H2 & H3).
  unfold _sipround, _sipround_inv. cbv beta iota zeta.
  cancel_steps. reflexivity.
Qed.

Lemma sipround_sipround_inv s : state_ok s -> _sipround (_sipround_inv s) = s.
Proof.
  destruct s as [[[v0 v1] v2] v3]. intros (H0 & H1 & H2 & H3).
  unfold _sipround, _sipround_inv. cbv beta iota zeta.
  cancel_steps. reflexivity.
Qed.

Lemma sipround_refines_spec s : state_ok s -> _sipround s = sipRound_spec s.
Proof.
  destruct s as [[[v0 v1] v2] v3]. intros (H0 & H1 & H2 & H3).
  unfold _sipround, sipRound_spec. cbv beta iota zeta.
  rewrite !land_add_add64.
  repeat rewrite rotl8_rotateLeft64 by (auto 10 with in64).
  reflexivity.
Qed.

(** ** Key encoding *)

Lemma in64_byte_at x k :
  0 <= k <= 56 -> in64 (Z.shiftl (Z.land x 0xff) k).
Proof.
  intros Hk. apply in64_of_bits.
  - apply Z.shiftl_nonneg. apply Z.land_nonneg. right. lia.
  - intros n Hn. rewrite Z.shiftl_spec by lia.
    change 0xff with (Z.ones 8). rewrite Z.land_spec, Z.ones_spec_high by lia.
    apply Bool.andb_false_r.
Qed.

Lemma in64_byteSwap64 x : in64 (byteSwap64 x).
Proof.
  unfold byteSwap64. cbn [map fold_right].
  repeat apply in64_lor; try apply in64_byte_at; try lia.
  unfold in64; lia.
Qed.

Lemma big_to_little8_byteSwap64 x : in64 x -> big_to_little8 x = inr (byteSwap64 x).
Proof.
  intros Hx. unfold big_to_little8, int_to_bytes.
  replace ((0 <=? x) && (x <? 2 ^ (8 * Z.of_nat 8)))%bool with true
    by (symmetry; unfold in64 in Hx; apply andb_true_intro; split;
        [apply Z.leb_le | apply Z.ltb_lt]; simpl; lia).
  f_equal. unfold int_from_bytes.
  assert (HL : in64 (le_combine (List.rev (le_split 8 x)))).
  { pose proof (le_combine_bound (List.rev (le_split 8 x))) as B.
    rewrite List.length_rev, length_le_split in B. exact B. }
  pose proof (in64_byteSwap64 x) as HR.
  apply Z.bits_inj'; intros n Hn.
  destruct (Z.lt_ge_cases n 64) as [Hlt | Hge].
  2: { rewrite !in64_testbit_high by assumption. reflexivity. }
  clear HL HR. unfold byteSwap64.
  cbv beta iota delta [le_split]. cbn [List.rev List.app map fold_right].
  cbv beta iota delta [le_combine].
  rewrite !byte.unsigned_of_Z. unfold byte.wrap.
  rewrite !Z.shiftr_shiftr by lia.
  repeat first [ rewrite Z.lor_spec | rewrite Z.shiftl_spec' | rewrite Z.land_spec
               | rewrite Z.shiftr_spec' | rewrite Z.testbit_mod_pow2 by lia ].
  pose proof (fun k (Hk : k < 0) => Z.testbit_neg_r x k Hk) as Hneg.
  revert Hneg. generalize (Z.testbit x) as t; intros t Hneg.
  assert (Hin : In n (map Z.of_nat (seq 0 64)))
    by (apply in_map_iff; exists (Z.to_nat n); split; [lia | apply in_seq; lia]).
  cbn [seq map Z.of_nat] in Hin.
  repeat destruct Hin as [<- | Hin]; [ .. | destruct Hin ]; simpl;
    repeat match goal with
           | |- context [t (Z.neg ?p)] => rewrite (Hneg (Z.neg p)) by lia
           end;
    btauto.
Qed.


(** ** Key encoding, message parsing and the instance *)

Lemma big_to_little8_neg x : x < 0 -> big_to_little8 x = inl OverflowError.
Proof.
  intros Hx. unfold big_to_little8, int_to_bytes.
  replace (0 <=? x) with false by (symmetry; apply Z.leb_gt; lia). reflexivity.
Qed.

Lemma big_to_little8_large x : 2 ^ 64 <= x -> big_to_little8 x = inl OverflowError.
Proof.
  intros Hx. unfold big_to_little8, int_to_bytes.
  replace (x <? 2 ^ (8 * Z.of_nat 8)) with false by (symmetry; apply Z.ltb_ge; simpl; lia).
  rewrite Bool.andb_false_r. reflexivity.
Qed.

Lemma encode_key_ok key :
  0 <= key < 2 ^ 128 ->
  _encode_key key = inr (byteSwap64 (Z.shiftr key 64), byteSwap64 (Z.land key (2 ^ 64 - 1))).
Proof.
  intros Hk. unfold _encode_key.
  rewrite big_to_little8_byteSwap64.
  2: { rewrite Z.shiftr_div_pow2 by lia. unfold in64. split.
       - apply Z.div_pos; lia.
       - apply Z.div_lt_upper_bound; [lia | ]. change (2 ^ 64 * 2 ^ 64) with (2 ^ 128). lia. }
  rewrite big_to_little8_byteSwap64 by apply in64_land_mask.
  reflexivity.
Qed.

Lemma encode_key_neg key : key < 0 -> _encode_key key = inl OverflowError.
Proof.
  intros Hk. unfold _encode_key. rewrite big_to_little8_neg; [reflexivity |].
  apply Z.shiftr_neg. exact Hk.
Qed.

Lemma encode_key_large key : 2 ^ 128 <= key -> _encode_key key = inl OverflowError.
Proof.
  intros Hk. unfold _encode_key. rewrite big_to_little8_large; [reflexivity |].
  rewrite Z.shiftr_div_pow2 by lia.
  apply Z.div_le_lower_bound; [lia |]. change (2 ^ 64 * 2 ^ 64) with (2 ^ 128). lia.
Qed.

Lemma int_to_bytes_one z : 0 <= z < 256 -> int_to_bytes z 1 false = inr [byte.of_Z z].
Proof.
  intros Hz. unfold int_to_bytes.
  replace ((0 <=? z) && (z <? 2 ^ (8 * Z.of_nat 1)))%bool with true
    by (symmetry; apply andb_true_intro; split; [apply Z.leb_le | apply Z.ltb_lt]; simpl; lia).
  reflexivity.
Qed.

(** [_message_to_words] never raises: the padded buffer is the message,
    [(len + 1) mod 8] zero bytes and the byte [len mod 256], cut into
    slices of 8 bytes. *)
Lemma message_to_words_eq m :
  let len := List.length m in
  let buf := (m ++ repeat Byte.x00 ((len + 1) mod 8) ++ [byte.of_Z (Z.of_nat len mod 256)])%list in
  _message_to_words m =
    inr (map (fun i => int_from_bytes (py_slice buf i 8) false)
             (py_range_step (List.length buf) 8)).
Proof.
  intros len buf. unfold _message_to_words.
  rewrite int_to_bytes_one by (apply Z.mod_pos_bound; lia).
  reflexivity.
Qed.

Lemma length_padded_buffer m :
  List.length (m ++ repeat Byte.x00 ((List.length m + 1) mod 8)
                 ++ [byte.of_Z (Z.of_nat (List.length m) mod 256)])%list
  = (List.length m + (List.length m + 1) mod 8 + 1)%nat.
Proof. rewrite !List.length_app, List.repeat_length. simpl. lia. Qed.

Lemma length_py_range_step n : List.length (py_range_step n 8) = ((n + 7) / 8)%nat.
Proof.
  unfold py_range_step. rewrite List.length_map, List.length_seq.
  replace (n + 8 - 1)%nat with (n + 7)%nat by lia. reflexivity.
Qed.

Lemma py_repeat_nonpos {A} (n : Z) (body : A -> A) (a : A) : n <= 0 -> py_repeat n body a = a.
Proof. intros Hn. unfold py_repeat. replace (Z.to_nat n) with 0%nat by lia. reflexivity. Qed.

Lemma get_hash_some o h : hash o = Some h -> get_hash o = (inr h, o).
Proof. intros H. unfold get_hash, bind, get, ret. rewrite H. reflexivity. Qed.

Lemma get_hash_fresh_error o e :
  hash o = None -> _encode_key (key o) = inl e -> get_hash o = (inl e, o).
Proof. intros H He. unfold get_hash, bind, get, lift. rewrite H, He. reflexivity. Qed.

Lemma compress_ok c m st : exists st', _compress c m st = inr st'.
Proof.
  unfold _compress. rewrite message_to_words_eq. simpl. eexists. reflexivity.
Qed.

(** On a fresh instance with a key of 128 bits, the digest is computed and
    stored. *)
Lemma get_hash_fresh_ok o :
  hash o = None -> 0 <= key o < 2 ^ 128 ->
  exists h, get_hash o =
    (inr h, {| key := key o; message := message o; c := c o; d := d o; hash := Some h |}).
Proof.
  intros H Hk. unfold get_hash, bind, get, lift, put, ret.
  rewrite H, encode_key_ok by exact Hk.
  match goal with |- context [_compress ?c ?m ?st] => destruct (compress_ok c m st) as [st' E] end.
  rewrite E. eexists. reflexivity.
Qed.

(** What a call of [get_hash] can do: raise and leave [self] unchanged,
    return the cached digest, or compute a digest and cache it. *)
Lemma get_hash_shape o :
  (exists e, get_hash o = (inl e, o)) \/
  (exists h, hash o = Some h /\ get_hash o = (inr h, o)) \/
  (exists h, hash o = None /\
     get_hash o = (inr h, {| key := key o; message := message o; c := c o; d := d o;
                             hash := Some h |})).
Proof.
  destruct (hash o) as [h |] eqn:Ho.
  - right; left. exists h. split; [reflexivity | apply get_hash_some; exact Ho].
  - destruct (_encode_key (key o)) as [e | [k0 k1]] eqn:Ek.
    + left. exists e. apply get_hash_fresh_error; assumption.
    + right; right. unfold get_hash, bind, get, lift, put, ret. rewrite Ho, Ek.
      match goal with |- context [_compress ?c ?m ?st] =>
        destruct (compress_ok c m st) as [st' E] end.
      rewrite E. eexists. split; reflexivity.
Qed.

(** ** The properties of the spec *)

(** C1: on the key [0x000102030405060708090a0b0c0d0e0f], the message
    [00 01 .. 0e] and the default [c = 2], [d = 4], [get_hash] returns
    [0xa129ca6149be45e5] and [hexdigest] returns ["a129ca6149be45e5"]. *)
Theorem known_answer_vector :
  fst (get_hash (SipHash_default test_key test_message)) = inr 0xa129ca6149be45e5 /\
  fst (hexdigest (SipHash_default test_key test_message)) = inr "a129ca6149be45e5"%string.
Proof. split; vm_compute; reflexivity. Qed.

(** C2: the padded buffer is the message, [(len + 1) mod 8] zero bytes and
    the length byte, but its length is not always a multiple of 8: an
    8-byte message is padded to 10 bytes (one zero byte and the length
    byte), so its last word is the 2-byte slice [00 08], that is [0x800],
    not a full block of 7 zero bytes and the length byte. *)
Theorem padding_eight_byte_message :
  let m := map byte.of_Z [0; 1; 2; 3; 4; 5; 6; 7] in
  (List.length m + (List.length m + 1) mod 8 + 1)%nat = 10%nat /\
  _message_to_words m = inr [0x0706050403020100; 0x800].
Proof. split; vm_compute; reflexivity. Qed.

(** C3 (as the code has it): no parameter is checked. A key of 2^128 or
    more makes the first [get_hash] and [hexdigest] raise [OverflowError]
    from the byte conversion in [_encode_key], leaving the instance as it
    was; [c] and [d] are not checked: with [c <= 0] [_compress] runs no
    round (each word is only XORed into [v3] and [v0]), with [d <= 0]
    [_finalise] runs no round (it XORs the four words after [v2 ^= 0xff]),
    and [get_hash] and [hexdigest] return for every 128-bit key whatever
    [c] and [d] are. *)
Theorem parameters_unchecked :
  (forall key message c d, 2 ^ 128 <= key ->
     get_hash (SipHash_init key message c d)
     = (inl OverflowError, SipHash_init key message c d) /\
     hexdigest (SipHash_init key message c d)
     = (inl OverflowError, SipHash_init key message c d)) /\
  (forall c message st words, c <= 0 -> _message_to_words message = inr words ->
     _compress c message st
     = inr (fold_left (fun s word =>
                         let '(v0, v1, v2, v3) := s in
                         (Z.lxor v0 word, v1, v2, Z.lxor v3 word)) words st)) /\
  (forall d v0 v1 v2 v3, d <= 0 ->
     _finalise d (v0, v1, v2, v3)
     = Z.lxor (Z.lxor (Z.lxor v0 v1) (Z.lxor v2 0xff)) v3) /\
  (forall key message c d, 0 <= key < 2 ^ 128 ->
     (exists h o', get_hash (SipHash_init key message c d) = (inr h, o')) /\
     (exists str o', hexdigest (SipHash_init key message c d) = (inr str, o'))).
Proof.
  split; [| split; [| split]].
  - intros key message c d Hk.
    assert (E : get_hash (SipHash_init key message c d)
                = (inl OverflowError, SipHash_init key message c d)).
    { apply get_hash_fresh_error; [reflexivity |].
      apply encode_key_large. exact Hk. }
    split; [exact E |]. unfold hexdigest, bind. rewrite E. reflexivity.
  - intros c message st words Hc Hw. unfold _compress. rewrite Hw. f_equal. clear Hw.
    revert st. induction words as [| w words IH]; intros st; [reflexivity |].
    simpl. rewrite <- IH. f_equal.
    destruct st as [[[v0 v1] v2] v3]. cbv beta iota zeta.
    rewrite py_repeat_nonpos by exact Hc. reflexivity.
  - intros d v0 v1 v2 v3 Hd. unfold _finalise. cbv beta iota zeta.
    rewrite py_repeat_nonpos by exact Hd. reflexivity.
  - intros key message c d Hk.
    destruct (get_hash_fresh_ok (SipHash_init key message c d)) as [h E];
      [reflexivity | exact Hk |].
    split; [eexists; eexists; exact E |].
    unfold hexdigest, bind, ret. rewrite E. eexists; eexists; reflexivity.
Qed.

(** C3 fails as stated: with [c = 0] no error is raised and a digest is
    returned. *)
Lemma zero_rounds_give_digest :
  exists h o', get_hash (SipHash_init test_key test_message 0 4) = (inr h, o').
Proof. vm_compute. eexists; eexists; reflexivity. Qed.

(** C4: [_sipround] is the step sequence of the spec (additions modulo
    2^64, rotations by 13, 32, 16, 17, 32, 21, XORs, in that order) on
    every state of four 64-bit words, and two rounds from the test state
    give the expected state. *)
Theorem sipround_steps_and_vector :
  (forall s, state_ok s -> _sipround s = sipRound_spec s) /\
  _sipround (_sipround (0x7469686173716475, 0x6b617f6d656e6665,
                        0x6b7f62616d677361, 0x7c6d6c6a717c6d7b))
  = (0x4d07749cdd0858e0, 0x0d52f6f62a4f59a4, 0x634cb3577b01fd3d, 0xa5224d6f55c7d9c8).
Proof.
  split.
  - exact sipround_refines_spec.
  - vm_compute. reflexivity.
Qed.

(** C5: for [0 <= key < 2^128], [_encode_key key] is
    [(byteSwap64 (key >> 64), byteSwap64 (key & (2^64 - 1)))], and on the
    test key it gives [k0 = 0x0706050403020100], [k1 = 0x0f0e0d0c0b0a0908]. *)
Theorem encode_key_byteswap (key : Z) (Hk : 0 <= key < 2 ^ 128) :
  _encode_key key = inr (byteSwap64 (Z.shiftr key 64), byteSwap64 (Z.land key (2 ^ 64 - 1))) /\
  _encode_key test_key = inr (0x0706050403020100, 0x0f0e0d0c0b0a0908).
Proof.
  split.
  - apply encode_key_ok. exact Hk.
  - vm_compute. reflexivity.
Qed.

Lemma encode_key_byteswap_witness :
  (0 <= test_key < 2 ^ 128) /\
  _encode_key test_key
  = inr (byteSwap64 (Z.shiftr test_key 64), byteSwap64 (Z.land test_key (2 ^ 64 - 1))).
Proof.
  assert (H : 0 <= test_key < 2 ^ 128) by (unfold test_key; lia).
  split; [exact H | apply (proj1 (encode_key_byteswap test_key H))].
Defined.

(** C6: [_message_to_words] on the empty message returns the single word
    [0], and on a message whose length is a multiple of 8 it returns
    [length / 8 + 1] words. *)
Theorem message_to_words_count (m : list byte) (Hm : (List.length m mod 8 = 0)%nat) :
  _message_to_words [] = inr [0] /\
  exists words, _message_to_words m = inr words /\
                List.length words = (List.length m / 8 + 1)%nat.
Proof.
  split; [vm_compute; reflexivity |].
  rewrite message_to_words_eq. cbv zeta.
  eexists; split; [reflexivity |].
  rewrite List.length_map, length_py_range_step, length_padded_buffer.
  set (len := List.length m) in *.
  pose proof (Nat.div_mod_eq len 8) as Hdm. rewrite Hm in Hdm.
  set (k := (len / 8)%nat) in *.
  assert (Hp : ((len + 1) mod 8 = 1)%nat) by (symmetry; apply (Nat.mod_unique _ _ k); lia).
  rewrite Hp. symmetry. apply (Nat.div_unique _ _ _ 1); lia.
Qed.

Lemma message_to_words_count_witness :
  (List.length (repeat Byte.x00 16) mod 8 = 0)%nat /\
  _message_to_words [] = inr [0] /\
  exists words, _message_to_words (repeat Byte.x00 16) = inr words /\
                List.length words = (List.length (repeat Byte.x00 16) / 8 + 1)%nat.
Proof.
  assert (H : (List.length (repeat Byte.x00 16) mod 8 = 0)%nat) by reflexivity.
  split; [exact H | apply (message_to_words_count (repeat Byte.x00 16) H)].
Defined.

(** C7: a second call of [get_hash] returns what the first returned, and
    after a successful first call the digest is stored in [self.hash], from
    which the second call returns it without running the pipeline. *)
Theorem get_hash_memoised (o : SipHash) :
  fst (get_hash (snd (get_hash o))) = fst (get_hash o) /\
  (forall h, fst (get_hash o) = inr h ->
     hash (snd (get_hash o)) = Some h /\
     get_hash (snd (get_hash o)) = (inr h, snd (get_hash o))).
Proof.
  destruct (get_hash_shape o) as [[e E] | [[h [Hh E]] | [h [Hh E]]]]; rewrite E; simpl.
  - rewrite E. split; [reflexivity | intros h' H; discriminate H].
  - rewrite E. split; [reflexivity |].
    intros h' H. injection H as <-. split; [exact Hh | reflexivity].
  - rewrite get_hash_some with (h := h) by reflexivity. split; [reflexivity |].
    intros h' H. injection H as <-. split; reflexivity.
Qed.

(** C8: for a key of 128 bits and positive [c], [d], [get_hash] and
    [hexdigest] return without raising. *)
Theorem digest_total (key : Z) (message : list byte) (c d : Z)
  (Hk : 0 <= key < 2 ^ 128) (Hc : 0 < c) (Hd : 0 < d) :
  (exists h o', get_hash (SipHash_init key message c d) = (inr h, o')) /\
  (exists str o', hexdigest (SipHash_init key message c d) = (inr str, o')).
Proof.
  destruct (get_hash_fresh_ok (SipHash_init key message c d)) as [h E];
    [reflexivity | exact Hk |].
  split; eexists; eexists.
  - exact E.
  - unfold hexdigest, bind. rewrite E. reflexivity.
Qed.

Lemma digest_total_witness :
  (0 <= 0 < 2 ^ 128) /\ 0 < 2 /\ 0 < 4 /\
  (exists h o', get_hash (SipHash_init 0 [] 2 4) = (inr h, o')) /\
  (exists str o', hexdigest (SipHash_init 0 [] 2 4) = (inr str, o')).
Proof.
  assert (Hk : 0 <= 0 < 2 ^ 128) by lia.
  assert (Hc : 0 < 2) by lia. assert (Hd : 0 < 4) by lia.
  split; [exact Hk | split; [exact Hc | split; [exact Hd |]]].
  exact (digest_total 0 [] 2 4 Hk Hc Hd).
Defined.

(** C9: on states of four 64-bit words [_sipround] is a bijection: it maps
    such states to such states, every such state has a preimage, and two
    distinct states have distinct images. *)
Theorem sipround_bijective (s s' : state) (Hs : state_ok s) (Hs' : state_ok s') :
  state_ok (_sipround s) /\
  (exists p, state_ok p /\ _sipround p = s) /\
  (_sipround s = _sipround s' -> s = s').
Proof.
  split; [| split].
  - apply sipround_state_ok. exact Hs.
  - exists (_sipround_inv s). split.
    + apply sipround_inv_state_ok. exact Hs.
    + apply sipround_sipround_inv. exact Hs.
  - intros E. rewrite <- (sipround_inv_sipround s Hs), <- (sipround_inv_sipround s' Hs'), E.
    reflexivity.
Qed.

Lemma sipround_bijective_witness :
  let s := (0x7469686173716475, 0x6b617f6d656e6665, 0x6b7f62616d677361, 0x7c6d6c6a717c6d7b) in
  let s' := (0, 1, 2, 3) in
  state_ok s /\ state_ok s' /\
  (state_ok (_sipround s) /\
   (exists p, state_ok p /\ _sipround p = s) /\
   (_sipround s = _sipround s' -> s = s')).
Proof.
  intros s s'.
  assert (Hs : state_ok s) by (cbv [state_ok s in64]; lia).
  assert (Hs' : state_ok s') by (cbv [state_ok s' in64]; lia).
  split; [exact Hs | split; [exact Hs' | exact (sipround_bijective s s' Hs Hs')]].
Defined.

(** C10: a negative key is accepted by the constructor, and the first
    [get_hash] (or [hexdigest]) raises [OverflowError] from the byte
    conversion of [_encode_key], leaving [self.hash] unset. *)
Theorem negative_key_fails_on_first_digest (key : Z) (message : list byte) (c d : Z)
  (Hk : key < 0) :
  hash (SipHash_init key message c d) = None /\
  get_hash (SipHash_init key message c d)
  = (inl OverflowError, SipHash_init key message c d) /\
  hexdigest (SipHash_init key message c d)
  = (inl OverflowError, SipHash_init key message c d).
Proof.
  assert (E : get_hash (SipHash_init key message c d)
              = (inl OverflowError, SipHash_init key message c d)).
  { apply get_hash_fresh_error; [reflexivity |]. apply encode_key_neg. exact Hk. }
  split; [reflexivity | split; [exact E |]].
  unfold hexdigest, bind. rewrite E. reflexivity.
Qed.

Lemma negative_key_fails_on_first_digest_witness :
  -1 < 0 /\
  hash (SipHash_init (-1) [] 2 4) = None /\
  get_hash (SipHash_init (-1) [] 2 4) = (inl OverflowError, SipHash_init (-1) [] 2 4) /\
  hexdigest (SipHash_init (-1) [] 2 4) = (inl OverflowError, SipHash_init (-1) [] 2 4).
Proof.
  assert (H : -1 < 0) by lia.
  split; [exact H | exact (negative_key_fails_on_first_digest (-1) [] 2 4 H)].
Defined.

(** ** Further properties of the code *)

(** *** util.py *)

Lemma big_to_little8_eq x : in64 x -> big_to_little8 x = inr (le_combine (List.rev (le_split 8 x))).
Proof.
  intros Hx. unfold big_to_little8, int_to_bytes.
  replace ((0 <=? x) && (x <? 2 ^ (8 * Z.of_nat 8)))%bool with true
    by (symmetry; unfold in64 in Hx; apply andb_true_intro; split;
        [apply Z.leb_le | apply Z.ltb_lt]; simpl; lia).
  reflexivity.
Qed.

Lemma big_to_little8_back x y : in64 x -> big_to_little8 x = inr y -> in64 y /\ big_to_little8 y = inr x.
Proof.
  intros Hx E. rewrite big_to_little8_eq in E by exact Hx.
  assert (Ey : y = le_combine (List.rev (le_split 8 x))) by congruence. subst y.
  assert (Hy : in64 (le_combine (List.rev (le_split 8 x)))).
  { pose proof (le_combine_bound (List.rev (le_split 8 x))) as B.
    rewrite List.length_rev, length_le_split in B. exact B. }
  split; [exact Hy |].
  rewrite big_to_little8_eq by exact Hy. f_equal.
  replace (le_split 8 (le_combine (List.rev (le_split 8 x))))
    with (List.rev (le_split 8 x)).
  - rewrite List.rev_involutive, le_combine_split. apply in64_mod. exact Hx.
  - pose proof (split_le_combine (List.rev (le_split 8 x))) as S.
    rewrite List.length_rev, length_le_split in S. rewrite S. reflexivity.
Qed.

(** X1: rotating a 64-bit word left by [b] and then by [64 - b] gives it
    back, and the rotated value is again a 64-bit word. *)
Theorem rotl8_round_trip (x b : Z) (Hx : in64 x) (Hb : 0 < b < 64) :
  in64 (rotl8 x b) /\ rotl8 (rotl8 x b) (64 - b) = x.
Proof.
  split; [apply in64_rotl8; assumption |].
  apply rotl8_cancel; [exact Hx | exact Hb | lia].
Qed.

Lemma rotl8_round_trip_witness :
  (in64 0x8000000000000001 /\ 0 < 13 < 64) /\
  in64 (rotl8 0x8000000000000001 13) /\ rotl8 (rotl8 0x8000000000000001 13) (64 - 13) = 0x8000000000000001.
Proof.
  assert (Hx : in64 0x8000000000000001) by (unfold in64; lia).
  assert (Hb : 0 < 13 < 64) by lia.
  split; [split; assumption | exact (rotl8_round_trip _ _ Hx Hb)].
Defined.

(** X2: bit [n] of [rotl8 x b] is bit [(n - b) mod 64] of [x], for a
    64-bit [x] and [0 < b < 64]: [rotl8] is a left rotation of the 64 bits. *)
Theorem rotl8_bits (x b n : Z) (Hx : in64 x) (Hb : 0 < b < 64) (Hn : 0 <= n < 64) :
  Z.testbit (rotl8 x b) n = Z.testbit x ((n - b) mod 64).
Proof.
  rewrite testbit_rotl8 by (auto; lia).
  replace (n <? 64) with true by (symmetry; apply Z.ltb_lt; lia). reflexivity.
Qed.

Lemma rotl8_bits_witness :
  (in64 1 /\ 0 < 13 < 64 /\ 0 <= 13 < 64) /\ Z.testbit (rotl8 1 13) 13 = Z.testbit 1 ((13 - 13) mod 64).
Proof.
  assert (Hx : in64 1) by (unfold in64; lia).
  assert (Hb : 0 < 13 < 64) by lia. assert (Hn : 0 <= 13 < 64) by lia.
  split; [repeat split; assumption || lia | exact (rotl8_bits 1 13 13 Hx Hb Hn)].
Defined.

(** X3: [big_to_little8] is its own inverse on 64-bit values: it maps a
    64-bit value to a 64-bit value, and applied to that gives back the
    original. *)
Theorem big_to_little8_involutive (x : Z) (Hx : in64 x) :
  exists y, big_to_little8 x = inr y /\ in64 y /\ big_to_little8 y = inr x.
Proof.
  exists (le_combine (List.rev (le_split 8 x))).
  assert (E : big_to_little8 x = inr (le_combine (List.rev (le_split 8 x))))
    by (apply big_to_little8_eq; exact Hx).
  split; [exact E | apply big_to_little8_back; assumption].
Qed.

Lemma big_to_little8_involutive_witness :
  in64 0x0102030405060708 /\
  exists y, big_to_little8 0x0102030405060708 = inr y /\ in64 y /\
            big_to_little8 y = inr 0x0102030405060708.
Proof.
  assert (Hx : in64 0x0102030405060708) by (unfold in64; lia).
  split; [exact Hx | exact (big_to_little8_involutive _ Hx)].
Defined.

(** X4: [big_to_little8] raises [OverflowError] exactly on the values that
    are not 64-bit words (negative, or 2^64 or more). *)
Theorem big_to_little8_raises_iff (x : Z) :
  big_to_little8 x = inl OverflowError <-> ~ (0 <= x < 2 ^ 64).
Proof.
  split.
  - intros E Hx. rewrite big_to_little8_eq in E by exact Hx. discriminate E.
  - intros Hx. destruct (Z.lt_ge_cases x 0).
    + apply big_to_little8_neg. assumption.
    + apply big_to_little8_large. lia.
Qed.

(** *** Key encoding *)

Lemma encode_key_halves key :
  0 <= key < 2 ^ 128 ->
  exists k0 k1, _encode_key key = inr (k0, k1) /\ in64 k0 /\ in64 k1 /\
    big_to_little8 k0 = inr (Z.shiftr key 64) /\
    big_to_little8 k1 = inr (Z.land key (2 ^ 64 - 1)).
Proof.
  intros Hk.
  assert (Hhi : in64 (Z.shiftr key 64)).
  { rewrite Z.shiftr_div_pow2 by lia. unfold in64. split.
    - apply Z.div_pos; lia.
    - apply Z.div_lt_upper_bound; [lia |]. change (2 ^ 64 * 2 ^ 64) with (2 ^ 128). lia. }
  assert (Hlo : in64 (Z.land key (2 ^ 64 - 1))) by apply in64_land_mask.
  pose proof (big_to_little8_byteSwap64 _ Hhi) as Ehi.
  pose proof (big_to_little8_byteSwap64 _ Hlo) as Elo.
  destruct (big_to_little8_back _ _ Hhi Ehi) as [H0 B0].
  destruct (big_to_little8_back _ _ Hlo Elo) as [H1 B1].
  exists (byteSwap64 (Z.shiftr key 64)), (byteSwap64 (Z.land key (2 ^ 64 - 1))).
  split; [apply encode_key_ok; exact Hk |].
  split; [exact H0 | split; [exact H1 | split; [exact B0 | exact B1]]].
Qed.

Lemma key_of_halves key :
  0 <= key -> key = Z.shiftr key 64 * 2 ^ 64 + Z.land key (2 ^ 64 - 1).
Proof.
  intros Hk. rewrite Z.shiftr_div_pow2 by lia.
  change (2 ^ 64 - 1) with 0xffffffffffffffff. rewrite mask64, Z.land_ones by lia.
  pose proof (Z.div_mod key (2 ^ 64)) as D. lia.
Qed.

Lemma encode_key_inj key key' :
  0 <= key < 2 ^ 128 -> 0 <= key' < 2 ^ 128 -> _encode_key key = _encode_key key' -> key = key'.
Proof.
  intros Hk Hk' E.
  destruct (encode_key_halves key Hk) as (k0 & k1 & E1 & _ & _ & B0 & B1).
  destruct (encode_key_halves key' Hk') as (k0' & k1' & E1' & _ & _ & B0' & B1').
  rewrite E1, E1' in E. injection E as <- <-.
  assert (Hhi : Z.shiftr key 64 = Z.shiftr key' 64) by congruence.
  assert (Hlo : Z.land key (2 ^ 64 - 1) = Z.land key' (2 ^ 64 - 1)) by congruence.
  rewrite (key_of_halves key), (key_of_halves key') by lia. rewrite Hhi, Hlo. reflexivity.
Qed.

(** X5: [_encode_key] raises [OverflowError] exactly when the key is not a
    128-bit value (negative, or 2^128 or more). *)
Theorem encode_key_raises_iff (key : Z) :
  _encode_key key = inl OverflowError <-> ~ (0 <= key < 2 ^ 128).
Proof.
  split.
  - intros E Hk. rewrite encode_key_ok in E by exact Hk. discriminate E.
  - intros Hk. destruct (Z.lt_ge_cases key 0).
    + apply encode_key_neg. assumption.
    + apply encode_key_large. lia.
Qed.

(** X6: the key is recovered from [(k0, k1)]: for a 128-bit key,
    [big_to_little8] of [k0] and of [k1] give the high and the low 64 bits,
    and [key = high * 2^64 + low]. *)
Theorem encode_key_round_trip (key : Z) (Hk : 0 <= key < 2 ^ 128) :
  exists k0 k1 hi lo,
    _encode_key key = inr (k0, k1) /\
    big_to_little8 k0 = inr hi /\ big_to_little8 k1 = inr lo /\
    key = hi * 2 ^ 64 + lo.
Proof.
  destruct (encode_key_halves key Hk) as (k0 & k1 & E & _ & _ & B0 & B1).
  exists k0, k1, (Z.shiftr key 64), (Z.land key (2 ^ 64 - 1)).
  split; [exact E | split; [exact B0 | split; [exact B1 |]]].
  apply key_of_halves. lia.
Qed.

Lemma encode_key_round_trip_witness :
  (0 <= test_key < 2 ^ 128) /\
  exists k0 k1 hi lo,
    _encode_key test_key = inr (k0, k1) /\
    big_to_little8 k0 = inr hi /\ big_to_little8 k1 = inr lo /\
    test_key = hi * 2 ^ 64 + lo.
Proof.
  assert (H : 0 <= test_key < 2 ^ 128) by (unfold test_key; lia).
  split; [exact H | exact (encode_key_round_trip test_key H)].
Defined.

(** X7: two different 128-bit keys never give the same [(k0, k1)]. *)
Theorem encode_key_injective (key key' : Z)
  (Hk : 0 <= key < 2 ^ 128) (Hk' : 0 <= key' < 2 ^ 128)
  (E : _encode_key key = _encode_key key') : key = key'.
Proof. exact (encode_key_inj key key' Hk Hk' E). Qed.

Lemma encode_key_injective_witness :
  (0 <= test_key < 2 ^ 128) /\ test_key = test_key.
Proof.
  assert (H : 0 <= test_key < 2 ^ 128) by (unfold test_key; lia).
  split; [exact H | exact (encode_key_injective test_key test_key H H eq_refl)].
Defined.

(** *** State initialisation, message parsing and compression *)

(** X8: from two 64-bit halves [_initialise_internal_state] builds four
    64-bit words, and the halves are recovered from [v0] and [v1] by XOR with
    the first two constants. *)
Theorem initialise_state_round_trip (k0 k1 : Z) (H0 : in64 k0) (H1 : in64 k1) :
  state_ok (_initialise_internal_state k0 k1) /\
  (let '(v0, v1, _, _) := _initialise_internal_state k0 k1 in
   Z.lxor v0 0x736f6d6570736575 = k0 /\ Z.lxor v1 0x646f72616e646f6d = k1).
Proof.
  unfold _initialise_internal_state. cbv beta iota zeta delta [state_ok].
  split.
  - split; [| split; [| split]]; apply in64_lxor; try assumption; unfold in64; lia.
  - split; apply lxor_cancel.
Qed.

Lemma initialise_state_round_trip_witness :
  (in64 0x0706050403020100 /\ in64 0x0f0e0d0c0b0a0908) /\
  state_ok (_initialise_internal_state 0x0706050403020100 0x0f0e0d0c0b0a0908) /\
  (let '(v0, v1, _, _) := _initialise_internal_state 0x0706050403020100 0x0f0e0d0c0b0a0908 in
   Z.lxor v0 0x736f6d6570736575 = 0x0706050403020100 /\
   Z.lxor v1 0x646f72616e646f6d = 0x0f0e0d0c0b0a0908).
Proof.
  assert (H0 : in64 0x0706050403020100) by (unfold in64; lia).
  assert (H1 : in64 0x0f0e0d0c0b0a0908) by (unfold in64; lia).
  split; [split; assumption | exact (initialise_state_round_trip _ _ H0 H1)].
Defined.

Lemma message_to_words_buffer m : _message_to_words m = inr (words_of_buffer (padded_message m)).
Proof. rewrite message_to_words_eq. reflexivity. Qed.

Lemma words_of_buffer_in64 b : Forall in64 (words_of_buffer b).
Proof.
  unfold words_of_buffer. apply List.Forall_map, List.Forall_forall. intros i _.
  unfold int_from_bytes, py_slice.
  pose proof (le_combine_bound (firstn 8 (skipn i b))) as B.
  rewrite List.length_firstn in B.
  assert (2 ^ (8 * Z.of_nat (Nat.min 8 (List.length (skipn i b)))) <= 2 ^ 64)
    by (apply Z.pow_le_mono_r; lia).
  unfold in64. lia.
Qed.

(** X9: [_message_to_words] returns 64-bit words, as many as there are
    8-byte slices (the last one possibly shorter) in the padded buffer of
    [len + (len + 1) mod 8 + 1] bytes. *)
Theorem message_words_shape (m : list byte) :
  exists words, _message_to_words m = inr words /\ Forall in64 words /\
    List.length words
    = ((List.length m + (List.length m + 1) mod 8 + 1 + 7) / 8)%nat.
Proof.
  exists (words_of_buffer (padded_message m)).
  split; [apply message_to_words_buffer | split; [apply words_of_buffer_in64 |]].
  unfold words_of_buffer. rewrite List.length_map, length_py_range_step.
  unfold padded_message. rewrite length_padded_buffer. reflexivity.
Qed.

Lemma map_eq_pointwise {A B} (f g : A -> B) (l : list A) :
  map f l = map g l -> forall x, In x l -> f x = g x.
Proof.
  induction l as [| a l IH]; simpl; intros E x Hx; [destruct Hx |].
  injection E as Ea El. destruct Hx as [<- | Hx]; [exact Ea | exact (IH El x Hx)].
Qed.

(** Two buffers of one length with the same words are equal. *)
Lemma words_of_buffer_inj b1 b2 :
  List.length b1 = List.length b2 -> words_of_buffer b1 = words_of_buffer b2 -> b1 = b2.
Proof.
  intros Hl E. unfold words_of_buffer in E. rewrite <- Hl in E.
  apply List.nth_error_ext. intros p.
  destruct (Nat.lt_ge_cases p (List.length b1)) as [Hp | Hp].
  - set (i := (8 * (p / 8))%nat).
    assert (Hi : In i (py_range_step (List.length b1) 8)).
    { unfold py_range_step. apply in_map_iff. exists (p / 8)%nat. split; [reflexivity |].
      apply in_seq. split; [lia |].
      assert (Hle : ((p + 1 * 8) / 8 <= (List.length b1 + 8 - 1) / 8)%nat)
        by (apply Nat.Div0.div_le_mono; lia).
      rewrite Nat.div_add in Hle by lia. lia. }
    pose proof (map_eq_pointwise _ _ _ E i Hi) as Ei.
    unfold int_from_bytes in Ei. simpl in Ei.
    apply le_combine_inj in Ei.
    2: { unfold py_slice. rewrite !List.length_firstn, !List.length_skipn, Hl. reflexivity. }
    assert (Hpi : forall b : list byte,
               nth_error (py_slice b i 8) (p mod 8) = nth_error b p).
    { intros b. unfold py_slice. rewrite List.nth_error_firstn by (apply Nat.mod_upper_bound; lia).
      rewrite List.nth_error_skipn. f_equal. unfold i.
      pose proof (Nat.div_mod_eq p 8). lia. }
    rewrite <- (Hpi b1), <- (Hpi b2), Ei. reflexivity.
  - rewrite (proj2 (List.nth_error_None b1 p)) by lia.
    rewrite (proj2 (List.nth_error_None b2 p)) by lia. reflexivity.
Qed.

(** X10: two different messages of the same length never give the same
    words. *)
Theorem message_to_words_injective (m1 m2 : list byte)
  (Hl : List.length m1 = List.length m2)
  (E : _message_to_words m1 = _message_to_words m2) : m1 = m2.
Proof.
  rewrite !message_to_words_buffer in E.
  assert (Ew : words_of_buffer (padded_message m1) = words_of_buffer (padded_message m2))
    by congruence.
  apply words_of_buffer_inj in Ew.
  - unfold padded_message in Ew. rewrite Hl in Ew. apply List.app_inv_tail in Ew. exact Ew.
  - unfold padded_message. rewrite !length_padded_buffer, Hl. reflexivity.
Qed.

Lemma message_to_words_injective_witness :
  (List.length test_message = List.length test_message /\
   _message_to_words test_message = _message_to_words test_message) /\
  test_message = test_message.
Proof.
  split; [split; reflexivity |].
  exact (message_to_words_injective test_message test_message eq_refl eq_refl).
Defined.

Lemma init_state_ok k0 k1 : in64 k0 -> in64 k1 -> state_ok (_initialise_internal_state k0 k1).
Proof.
  intros H0 H1. unfold _initialise_internal_state. cbv beta iota zeta delta [state_ok].
  split; [| split; [| split]]; apply in64_lxor; try assumption; unfold in64; lia.
Qed.

Lemma init_state_inj k0 k1 k0' k1' :
  _initialise_internal_state k0 k1 = _initialise_internal_state k0' k1' -> k0 = k0' /\ k1 = k1'.
Proof.
  unfold _initialise_internal_state. cbv beta iota zeta. intros E.
  assert (E0 : Z.lxor k0 0x736f6d6570736575 = Z.lxor k0' 0x736f6d6570736575) by congruence.
  assert (E1 : Z.lxor k1 0x646f72616e646f6d = Z.lxor k1' 0x646f72616e646f6d) by congruence.
  rewrite <- (lxor_cancel k0 0x736f6d6570736575), <- (lxor_cancel k1 0x646f72616e646f6d), E0, E1.
  rewrite !lxor_cancel. split; reflexivity.
Qed.

Lemma iter_sipround_ok k s : state_ok s -> state_ok (Nat.iter k _sipround s).
Proof.
  induction k as [| k IH]; simpl; intros Hs; [exact Hs |].
  apply sipround_state_ok, IH, Hs.
Qed.

Lemma iter_sipround_inj k s s' :
  state_ok s -> state_ok s' -> Nat.iter k _sipround s = Nat.iter k _sipround s' -> s = s'.
Proof.
  induction k as [| k IH]; simpl; intros Hs Hs' E; [exact E |].
  apply IH; try assumption.
  rewrite <- (sipround_inv_sipround (Nat.iter k _sipround s)) by (apply iter_sipround_ok, Hs).
  rewrite <- (sipround_inv_sipround (Nat.iter k _sipround s')) by (apply iter_sipround_ok, Hs').
  rewrite E. reflexivity.
Qed.

Lemma compress_step_ok c w st : in64 w -> state_ok st -> state_ok (compress_step c st w).
Proof.
  destruct st as [[[v0 v1] v2] v3]. intros Hw (H0 & H1 & H2 & H3).
  cbv beta iota zeta delta [compress_step py_repeat].
  assert (Hin : state_ok (v0, v1, v2, Z.lxor v3 w))
    by (split; [| split; [| split]]; auto using in64_lxor).
  pose proof (iter_sipround_ok (Z.to_nat c) _ Hin) as R.
  destruct (Nat.iter (Z.to_nat c) _sipround (v0, v1, v2, Z.lxor v3 w)) as [[[a b] e] f].
  destruct R as (Ra & Rb & Re & Rf).
  split; [| split; [| split]]; auto using in64_lxor.
Qed.

Lemma compress_step_inj c w st st' :
  in64 w -> state_ok st -> state_ok st' -> compress_step c st w = compress_step c st' w -> st = st'.
Proof.
  destruct st as [[[v0 v1] v2] v3], st' as [[[v0' v1'] v2'] v3'].
  intros Hw (H0 & H1 & H2 & H3) (H0' & H1' & H2' & H3').
  cbv beta iota zeta delta [compress_step py_repeat]. intros E.
  assert (Hin : state_ok (v0, v1, v2, Z.lxor v3 w))
    by (split; [| split; [| split]]; auto using in64_lxor).
  assert (Hin' : state_ok (v0', v1', v2', Z.lxor v3' w))
    by (split; [| split; [| split]]; auto using in64_lxor).
  assert (R : Nat.iter (Z.to_nat c) _sipround (v0, v1, v2, Z.lxor v3 w)
              = Nat.iter (Z.to_nat c) _sipround (v0', v1', v2', Z.lxor v3' w)).
  { destruct (Nat.iter (Z.to_nat c) _sipround (v0, v1, v2, Z.lxor v3 w)) as [[[a b] e] f].
    destruct (Nat.iter (Z.to_nat c) _sipround (v0', v1', v2', Z.lxor v3' w))
      as [[[a' b'] e'] f'].
    assert (Ea : Z.lxor a w = Z.lxor a' w) by congruence.
    rewrite <- (lxor_cancel a w), <- (lxor_cancel a' w), Ea. congruence. }
  apply iter_sipround_inj in R; try assumption.
  assert (E3 : Z.lxor v3 w = Z.lxor v3' w) by congruence.
  rewrite <- (lxor_cancel v3 w), <- (lxor_cancel v3' w), E3. congruence.
Qed.

Lemma fold_compress_ok c ws st :
  Forall in64 ws -> state_ok st -> state_ok (fold_left (compress_step c) ws st).
Proof.
  revert st. induction ws as [| w ws IH]; simpl; intros st Hws Hst; [exact Hst |].
  inversion Hws as [| ? ? Hw Hws']; subst.
  apply IH; [exact Hws' | apply compress_step_ok; assumption].
Qed.

Lemma fold_compress_inj c ws st st' :
  Forall in64 ws -> state_ok st -> state_ok st' ->
  fold_left (compress_step c) ws st = fold_left (compress_step c) ws st' -> st = st'.
Proof.
  revert st st'. induction ws as [| w ws IH]; simpl; intros st st' Hws Hst Hst' E; [exact E |].
  inversion Hws as [| ? ? Hw Hws']; subst.
  apply (compress_step_inj c w); try assumption.
  apply (IH _ _ Hws'); try apply compress_step_ok; assumption.
Qed.

Lemma compress_eq c m st :
  _compress c m st = inr (fold_left (compress_step c) (words_of_buffer (padded_message m)) st).
Proof. unfold _compress. rewrite message_to_words_buffer. reflexivity. Qed.

(** X11: [_compress] never raises and keeps the state four 64-bit words. *)
Theorem compress_keeps_state (c : Z) (m : list byte) (st : state) (Hst : state_ok st) :
  exists st', _compress c m st = inr st' /\ state_ok st'.
Proof.
  eexists. split; [apply compress_eq |].
  apply fold_compress_ok; [apply words_of_buffer_in64 | exact Hst].
Qed.

Lemma compress_keeps_state_witness :
  state_ok (_initialise_internal_state 0 0) /\
  exists st', _compress 2 test_message (_initialise_internal_state 0 0) = inr st' /\ state_ok st'.
Proof.
  assert (H : state_ok (_initialise_internal_state 0 0))
    by (apply init_state_ok; unfold in64; lia).
  split; [exact H | exact (compress_keeps_state 2 test_message _ H)].
Defined.

(** X12: for a fixed message and [c], [_compress] maps different 64-bit
    states to different states. *)
Theorem compress_injective (c : Z) (m : list byte) (st st' : state)
  (Hst : state_ok st) (Hst' : state_ok st')
  (E : _compress c m st = _compress c m st') : st = st'.
Proof.
  rewrite !compress_eq in E.
  assert (F : fold_left (compress_step c) (words_of_buffer (padded_message m)) st
              = fold_left (compress_step c) (words_of_buffer (padded_message m)) st')
    by congruence.
  exact (fold_compress_inj c _ st st' (words_of_buffer_in64 _) Hst Hst' F).
Qed.

Lemma compress_injective_witness :
  (state_ok (_initialise_internal_state 0 0) /\
   _compress 2 test_message (_initialise_internal_state 0 0)
   = _compress 2 test_message (_initialise_internal_state 0 0)) /\
  _initialise_internal_state 0 0 = _initialise_internal_state 0 0.
Proof.
  assert (H : state_ok (_initialise_internal_state 0 0))
    by (apply init_state_ok; unfold in64; lia).
  split; [split; [exact H | reflexivity] |].
  exact (compress_injective 2 test_message _ _ H H eq_refl).
Defined.

(** X13: before finalisation nothing is lost: for 128-bit keys, the same
    message and the same [c], equal compressed states come from equal keys. *)
Theorem compressed_state_determines_key (c : Z) (m : list byte) (key key' k0 k1 k0' k1' : Z)
  (Hk : 0 <= key < 2 ^ 128) (Hk' : 0 <= key' < 2 ^ 128)
  (E : _encode_key key = inr (k0, k1)) (E' : _encode_key key' = inr (k0', k1'))
  (C : _compress c m (_initialise_internal_state k0 k1)
       = _compress c m (_initialise_internal_state k0' k1')) :
  key = key'.
Proof.
  destruct (encode_key_halves key Hk) as (h0 & h1 & Eh & Hh0 & Hh1 & _).
  destruct (encode_key_halves key' Hk') as (h0' & h1' & Eh' & Hh0' & Hh1' & _).
  rewrite E in Eh. rewrite E' in Eh'.
  assert (A0 : k0 = h0) by congruence. assert (A1 : k1 = h1) by congruence.
  assert (A0' : k0' = h0') by congruence. assert (A1' : k1' = h1') by congruence.
  subst k0 k1 k0' k1'.
  rewrite !compress_eq in C.
  assert (F : fold_left (compress_step c) (words_of_buffer (padded_message m))
                (_initialise_internal_state h0 h1)
              = fold_left (compress_step c) (words_of_buffer (padded_message m))
                (_initialise_internal_state h0' h1')) by congruence.
  apply fold_compress_inj in F;
    [| apply words_of_buffer_in64 | apply init_state_ok; assumption ..].
  apply init_state_inj in F. destruct F as [-> ->].
  apply encode_key_inj; try assumption. congruence.
Qed.

Lemma compressed_state_determines_key_witness :
  ((0 <= test_key < 2 ^ 128 /\ 0 <= test_key < 2 ^ 128) /\
   _encode_key test_key = inr (0x0706050403020100, 0x0f0e0d0c0b0a0908) /\
   _compress 2 test_message (_initialise_internal_state 0x0706050403020100 0x0f0e0d0c0b0a0908)
   = _compress 2 test_message (_initialise_internal_state 0x0706050403020100 0x0f0e0d0c0b0a0908))
  /\ test_key = test_key.
Proof.
  assert (Hk : 0 <= test_key < 2 ^ 128) by (unfold test_key; lia).
  assert (E : _encode_key test_key = inr (0x0706050403020100, 0x0f0e0d0c0b0a0908))
    by (vm_compute; reflexivity).
  split; [split; [split; assumption | split; [exact E | reflexivity]] |].
  exact (compressed_state_determines_key 2 test_message test_key test_key _ _ _ _
           Hk Hk E E eq_refl).
Defined.

(** *** The digest and its hexadecimal form *)

Lemma finalise_in64 d st : state_ok st -> in64 (_finalise d st).
Proof.
  destruct st as [[[v0 v1] v2] v3]. intros (H0 & H1 & H2 & H3).
  cbv beta iota zeta delta [_finalise py_repeat].
  assert (Hin : state_ok (v0, v1, Z.lxor v2 0xff, v3))
    by (split; [| split; [| split]]; try apply in64_lxor; try assumption; unfold in64; lia).
  pose proof (iter_sipround_ok (Z.to_nat d) _ Hin) as R.
  destruct (Nat.iter (Z.to_nat d) _sipround (v0, v1, Z.lxor v2 0xff, v3)) as [[[a b] e] f].
  destruct R as (Ra & Rb & Re & Rf). auto using in64_lxor.
Qed.

Lemma encode_key_in64 key k0 k1 : _encode_key key = inr (k0, k1) -> in64 k0 /\ in64 k1.
Proof.
  intros E. destruct (Z.lt_ge_cases key 0) as [Hn | Hn].
  - rewrite encode_key_neg in E by exact Hn. discriminate E.
  - destruct (Z.lt_ge_cases key (2 ^ 128)) as [Hl | Hl].
    + destruct (encode_key_halves key (conj Hn Hl)) as (h0 & h1 & Eh & Hh0 & Hh1 & _).
      rewrite E in Eh. split; congruence.
    + rewrite encode_key_large in E by exact Hl. discriminate E.
Qed.

Lemma get_hash_fresh_in64 o h o' : hash o = None -> get_hash o = (inr h, o') -> in64 h.
Proof.
  intros Ho E. unfold get_hash, bind, get, lift, put, ret in E. rewrite Ho in E.
  destruct (_encode_key (key o)) as [e | [k0 k1]] eqn:Ek; [discriminate E |].
  destruct (encode_key_in64 _ _ _ Ek) as [H0 H1].
  rewrite compress_eq in E. cbv beta iota zeta in E.
  assert (Eh : _finalise (d o) (fold_left (compress_step (c o))
                 (words_of_buffer (padded_message (message o)))
                 (_initialise_internal_state k0 k1)) = h) by congruence.
  rewrite <- Eh. apply finalise_in64, fold_compress_ok;
    [apply words_of_buffer_in64 | apply init_state_ok; assumption].
Qed.

(** X14: a digest computed by [get_hash] on a fresh instance is a 64-bit
    number: [_finalise] XORs four 64-bit words. *)
Theorem fresh_digest_in64 (o : SipHash) (h : Z) (o' : SipHash)
  (Ho : hash o = None) (E : get_hash o = (inr h, o')) : 0 <= h < 2 ^ 64.
Proof. exact (get_hash_fresh_in64 o h o' Ho E). Qed.

Lemma fresh_digest_in64_witness :
  (hash (SipHash_default test_key test_message) = None /\
   get_hash (SipHash_default test_key test_message)
   = (inr 0xa129ca6149be45e5, mkSipHash test_key test_message 2 4 (Some 0xa129ca6149be45e5))) /\
  0 <= 0xa129ca6149be45e5 < 2 ^ 64.
Proof.
  assert (E : get_hash (SipHash_default test_key test_message)
              = (inr 0xa129ca6149be45e5,
                 mkSipHash test_key test_message 2 4 (Some 0xa129ca6149be45e5)))
    by (vm_compute; reflexivity).
  split; [split; [reflexivity | exact E] |].
  exact (fresh_digest_in64 (SipHash_default test_key test_message) _ _ eq_refl E).
Defined.

Lemma hex_digit_value_hex_char r : 0 <= r < 16 -> hex_digit_value (hex_char r) = Some r.
Proof.
  intros Hr.
  assert (r = 0 \/ r = 1 \/ r = 2 \/ r = 3 \/ r = 4 \/ r = 5 \/ r = 6 \/ r = 7 \/
          r = 8 \/ r = 9 \/ r = 10 \/ r = 11 \/ r = 12 \/ r = 13 \/ r = 14 \/ r = 15)
    as Hc by lia.
  repeat destruct Hc as [-> | Hc]; [reflexivity .. |]. subst r. reflexivity.
Qed.

Lemma hex_char_nonzero r : 0 < r < 16 -> hex_char r <> "0"%char.
Proof.
  intros Hr.
  assert (r = 1 \/ r = 2 \/ r = 3 \/ r = 4 \/ r = 5 \/ r = 6 \/ r = 7 \/
          r = 8 \/ r = 9 \/ r = 10 \/ r = 11 \/ r = 12 \/ r = 13 \/ r = 14 \/ r = 15)
    as Hc by lia.
  repeat destruct Hc as [-> | Hc]; [discriminate .. |]. subst r. discriminate.
Qed.

Lemma parse_hex_digits_aux f n acc :
  0 <= n < 16 ^ Z.of_nat f -> parse_hex_from 0 (hex_digits_aux f n acc) = parse_hex_from n acc.
Proof.
  revert n acc. induction f as [| f IH]; intros n acc Hn.
  - simpl in Hn. assert (n = 0) as -> by lia. reflexivity.
  - rewrite Nat2Z.inj_succ, Z.pow_succ_r in Hn by lia.
    pose proof (Z.mod_pos_bound n 16 ltac:(lia)) as Hm.
    pose proof (Z.div_mod n 16 ltac:(lia)) as Hd.
    simpl hex_digits_aux. destruct (Z.ltb_spec n 16) as [Hs | Hs].
    + simpl parse_hex_from. rewrite hex_digit_value_hex_char by exact Hm.
      rewrite Z.mod_small by lia. reflexivity.
    + rewrite IH.
      * cbn [parse_hex_from]. rewrite hex_digit_value_hex_char by exact Hm.
        rewrite <- Hd. reflexivity.
      * split; [apply Z.div_pos; lia |].
        apply Z.div_lt_upper_bound; lia.
Qed.

Lemma hex_digits_aux_lead f n acc :
  0 < n < 16 ^ Z.of_nat f ->
  exists r rest, 0 < r < 16 /\ hex_digits_aux f n acc = String (hex_char r) rest.
Proof.
  revert n acc. induction f as [| f IH]; intros n acc Hn.
  - simpl in Hn. lia.
  - rewrite Nat2Z.inj_succ, Z.pow_succ_r in Hn by lia.
    simpl hex_digits_aux. destruct (Z.ltb_spec n 16) as [Hs | Hs].
    + exists n, acc. rewrite Z.mod_small by lia. split; [lia | reflexivity].
    + apply IH. split.
      * apply Z.div_str_pos. lia.
      * apply Z.div_lt_upper_bound; lia.
Qed.

Lemma hex_digits_fuel n : 0 <= n -> 0 <= n < 16 ^ Z.of_nat (S (Z.to_nat (Z.log2 n))).
Proof.
  intros Hn. split; [exact Hn |].
  pose proof (Z.log2_nonneg n) as Hl.
  rewrite Nat2Z.inj_succ, Z2Nat.id by exact Hl.
  destruct (Z.eq_dec n 0) as [-> | Hnz]; [apply Z.pow_pos_nonneg; lia |].
  destruct (Z.log2_spec n ltac:(lia)) as [_ Hup].
  apply (Z.lt_le_trans _ _ _ Hup). apply Z.pow_le_mono_l. lia.
Qed.

Lemma substring_all s : String.substring 0 (String.length s) s = s.
Proof. induction s as [| ch s IH]; simpl; [reflexivity | rewrite IH; reflexivity]. Qed.

Lemma drop2_hex n : 0 <= n -> drop2 (hex n) = hex_digits n.
Proof.
  intros Hn. unfold hex. destruct (Z.ltb_spec n 0) as [Hc | _]; [lia |].
  unfold drop2. simpl String.length. simpl String.substring.
  rewrite Nat.sub_0_r. apply substring_all.
Qed.

Lemma hexdigest_of_get_hash o h o' :
  get_hash o = (inr h, o') -> 0 <= h -> hexdigest o = (inr (hex_digits h), o').
Proof.
  intros E Hh. unfold hexdigest, bind, ret. rewrite E, drop2_hex by exact Hh. reflexivity.
Qed.

Lemma length_hex_digits_aux f k n acc :
  (1 <= k)%nat -> 0 <= n < 16 ^ Z.of_nat k ->
  (String.length (hex_digits_aux f n acc) <= k + String.length acc)%nat.
Proof.
  revert k n acc. induction f as [| f IH]; intros k n acc Hk Hn; simpl; [lia |].
  destruct (Z.ltb_spec n 16) as [Hs | Hs]; simpl; [lia |].
  destruct k as [| [| k']]; [lia | simpl in Hn; lia |].
  rewrite Nat2Z.inj_succ, Z.pow_succ_r in Hn by lia.
  specialize (IH (S k') (n / 16) (String (hex_char (n mod 16)) acc)).
  simpl String.length in IH. enough (H : 0 <= n / 16 < 16 ^ Z.of_nat (S k')) by (specialize (IH ltac:(lia) H); lia).
  split; [apply Z.div_pos; lia | apply Z.div_lt_upper_bound; lia].
Qed.

(** X15: on a fresh instance, [hexdigest] returns the hexadecimal digits of
    the digest that [get_hash] computes, leaves [self] as [get_hash] does,
    and [int(s, 16)] reads the digest back. *)
Theorem hexdigest_round_trip (o : SipHash) (h : Z) (o' : SipHash)
  (Ho : hash o = None) (E : get_hash o = (inr h, o')) :
  exists s, hexdigest o = (inr s, o') /\ int_base16 s = Some h.
Proof.
  pose proof (get_hash_fresh_in64 o h o' Ho E) as Hh.
  exists (hex_digits h). split; [apply hexdigest_of_get_hash; [exact E | apply Hh] |].
  destruct (Z.eq_dec h 0) as [-> | Hnz]; [reflexivity |].
  pose proof (hex_digits_fuel h (proj1 Hh)) as Hf.
  destruct (hex_digits_aux_lead (S (Z.to_nat (Z.log2 h))) h EmptyString ltac:(lia))
    as (r & rest & _ & Hl).
  unfold int_base16, hex_digits. rewrite Hl, <- Hl.
  rewrite parse_hex_digits_aux by exact Hf. reflexivity.
Qed.

Lemma hexdigest_round_trip_witness :
  (hash (SipHash_default test_key test_message) = None /\
   get_hash (SipHash_default test_key test_message)
   = (inr 0xa129ca6149be45e5, mkSipHash test_key test_message 2 4 (Some 0xa129ca6149be45e5))) /\
  exists s, hexdigest (SipHash_default test_key test_message)
            = (inr s, mkSipHash test_key test_message 2 4 (Some 0xa129ca6149be45e5)) /\
          int_base16 s = Some 0xa129ca6149be45e5.
Proof.
  assert (E : get_hash (SipHash_default test_key test_message)
              = (inr 0xa129ca6149be45e5,
                 mkSipHash test_key test_message 2 4 (Some 0xa129ca6149be45e5)))
    by (vm_compute; reflexivity).
  split; [split; [reflexivity | exact E] |].
  exact (hexdigest_round_trip (SipHash_default test_key test_message) _ _ eq_refl E).
Defined.

(** X16: the string of [hexdigest] is not padded to 16 digits: on a fresh
    instance it has 1 to 16 characters, and it starts with ["0"] only when
    the digest is 0 and the string is ["0"]. *)
Theorem hexdigest_unpadded (o : SipHash) (h : Z) (o' : SipHash)
  (Ho : hash o = None) (E : get_hash o = (inr h, o')) :
  exists s, hexdigest o = (inr s, o') /\ (String.length s <= 16)%nat /\
    ((h = 0 /\ s = "0"%string) \/
     (h <> 0 /\ exists ch rest, s = String ch rest /\ ch <> "0"%char)).
Proof.
  pose proof (get_hash_fresh_in64 o h o' Ho E) as Hh.
  exists (hex_digits h). split; [apply hexdigest_of_get_hash; [exact E | apply Hh] |].
  split.
  - unfold hex_digits.
    pose proof (length_hex_digits_aux (S (Z.to_nat (Z.log2 h))) 16 h EmptyString
                  ltac:(lia) ltac:(unfold in64 in Hh; simpl; lia)) as L.
    simpl String.length at 2 in L. lia.
  - destruct (Z.eq_dec h 0) as [-> | Hnz]; [left; split; reflexivity | right].
    pose proof (hex_digits_fuel h (proj1 Hh)) as Hf.
    destruct (hex_digits_aux_lead (S (Z.to_nat (Z.log2 h))) h EmptyString ltac:(lia))
      as (r & rest & Hr & Hl).
    split; [exact Hnz |]. exists (hex_char r), rest. split; [exact Hl |].
    apply hex_char_nonzero, Hr.
Qed.

Lemma hexdigest_unpadded_witness :
  (hash (SipHash_default test_key test_message) = None /\
   get_hash (SipHash_default test_key test_message)
   = (inr 0xa129ca6149be45e5, mkSipHash test_key test_message 2 4 (Some 0xa129ca6149be45e5))) /\
  exists s, hexdigest (SipHash_default test_key test_message)
            = (inr s, mkSipHash test_key test_message 2 4 (Some 0xa129ca6149be45e5)) /\
    (String.length s <= 16)%nat /\
    ((0xa129ca6149be45e5 = 0 /\ s = "0"%string) \/
     (0xa129ca6149be45e5 <> 0 /\ exists ch rest, s = String ch rest /\ ch <> "0"%char)).
Proof.
  assert (E : get_hash (SipHash_default test_key test_message)
              = (inr 0xa129ca6149be45e5,
                 mkSipHash test_key test_message 2 4 (Some 0xa129ca6149be45e5)))
    by (vm_compute; reflexivity).
  split; [split; [reflexivity | exact E] |].
  exact (hexdigest_unpadded (SipHash_default test_key test_message) _ _ eq_refl E).
Defined.

(** *** Edge cases of [rotl8] and what the methods never change *)

(** X17: [rotl8] by 0 or by 64 bits returns a 64-bit number unchanged: one
    of the two shifted parts is then empty. *)
Theorem rotl8_zero_and_full (x : Z) (Hx : 0 <= x < 2 ^ 64) :
  rotl8 x 0 = x /\ rotl8 x 64 = x.
Proof.
  unfold rotl8. rewrite mask64, !Z.land_ones by lia. split.
  - rewrite Z.shiftl_0_r, Z.sub_0_r, Z.mod_small by lia.
    rewrite Z.shiftr_div_pow2, Z.div_small by lia. apply Z.lor_0_r.
  - rewrite Z.sub_diag, Z.shiftr_0_r, Z.shiftl_mul_pow2 by lia.
    rewrite Z.mod_mul by (apply Z.pow_nonzero; lia). apply Z.lor_0_l.
Qed.

Lemma rotl8_zero_and_full_witness :
  (0 <= 0x0123456789abcdef < 2 ^ 64) /\
  rotl8 0x0123456789abcdef 0 = 0x0123456789abcdef /\
  rotl8 0x0123456789abcdef 64 = 0x0123456789abcdef.
Proof.
  assert (H : 0 <= 0x0123456789abcdef < 2 ^ 64) by lia.
  split; [exact H | exact (rotl8_zero_and_full _ H)].
Defined.

(** X18: whatever they return or raise, [get_hash] and [hexdigest] never
    change the key, the message, [c] or [d] of the instance. *)
Theorem methods_keep_parameters (o : SipHash) :
  (key (snd (get_hash o)) = key o /\ message (snd (get_hash o)) = message o /\
   c (snd (get_hash o)) = c o /\ d (snd (get_hash o)) = d o) /\
  (key (snd (hexdigest o)) = key o /\ message (snd (hexdigest o)) = message o /\
   c (snd (hexdigest o)) = c o /\ d (snd (hexdigest o)) = d o).
Proof.
  assert (Hx : snd (hexdigest o) = snd (get_hash o)).
  { unfold hexdigest, bind, ret. destruct (get_hash o) as [[e | h] o']; reflexivity. }
  rewrite Hx.
  destruct (get_hash_shape o) as [(e & E) | [(h & _ & E) | (h & _ & E)]];
    rewrite E; simpl; repeat split.
Qed.

Lemma get_hash_raises_iff o :
  (exists e, fst (get_hash o) = inl e) <-> hash o = None /\ ~ (0 <= key o < 2 ^ 128).
Proof.
  split.
  - intros (e & E). destruct (hash o) as [h |] eqn:Ho.
    + rewrite (get_hash_some o h Ho) in E. discriminate E.
    + split; [reflexivity | intros Hk].
      destruct (get_hash_fresh_ok o Ho Hk) as [h E']. rewrite E' in E. discriminate E.
  - intros [Ho Hk]. exists OverflowError.
    rewrite (get_hash_fresh_error o OverflowError Ho); [reflexivity |].
    destruct (Z.lt_ge_cases (key o) 0).
    + apply encode_key_neg. assumption.
    + apply encode_key_large. lia.
Qed.

(** X19: [get_hash] and [hexdigest] raise exactly on a fresh instance whose
    key is not a 128-bit number, whatever [c], [d] and the message are. *)
Theorem methods_raise_iff (o : SipHash) :
  ((exists e, fst (get_hash o) = inl e) <-> hash o = None /\ ~ (0 <= key o < 2 ^ 128)) /\
  ((exists e, fst (hexdigest o) = inl e) <-> hash o = None /\ ~ (0 <= key o < 2 ^ 128)).
Proof.
  split; [apply get_hash_raises_iff |].
  rewrite <- get_hash_raises_iff.
  unfold hexdigest, bind, ret.
  destruct (get_hash o) as [[e | h] o']; simpl.
  - split; intros _; exists e; reflexivity.
  - split; intros (e & E); discriminate E.
Qed.
